(** * FlourishTalents: the client-side query cache and the paginated fetch

    A shallow embedding of [src/utils/queryCache.ts] (class [QueryCache],
    listed at the end of PERFORMANCE_SUMMARY.md) and of the paginated
    content query of [src/pages/Media.tsx] as the performance reports show
    it, together with the properties of the specification that concern
    them.

    Numbers are integers ([Z]): [Date.now()] yields whole milliseconds and
    every TTL in the repository is a whole number of milliseconds.  The
    [Map<string, CacheEntry>] of the class is a [gmap string CacheEntry];
    the JavaScript value [null] is [None].  Time is a simulated clock that
    drives both [Date.now()] and the timers of [setTimeout]. *)

From Stdlib Require Import ZArith Lia.
From stdpp Require Import gmap strings list pretty.

Local Open Scope Z_scope.

(** ** The host: clock and timers *)

Module Host.

(** [setTimeout(cb, delay)] takes its delay as a Web IDL [long]: the
    number is reduced to a signed 32-bit integer, and a negative result
    counts as zero (HTML Standard, timer initialisation steps). *)
Definition toInt32 (x : Z) : Z := (x + 2 ^ 31) mod 2 ^ 32 - 2 ^ 31.

Definition timerDelay (delay : Z) : Z := Z.max 0 (toInt32 delay).

Definition MAX_TIMEOUT : Z := 2 ^ 31 - 1.

(** A pending timer of the cache: the instant it is due and the key its
    callback [() => this.cache.delete(key)] will delete. *)
Definition Timer : Type := Z * string.

Definition due (tm : Timer) : Z := tm.1.
Definition target (tm : Timer) : string := tm.2.

End Host.

(** ** [queryCache.ts] *)

Module QueryCache.
Section Defs.

(** [T] is the type of cached payloads other than [null], [Err] the type
    of JavaScript [Error] objects. *)
Context {T Err : Type}.

(** [interface CacheEntry<T> { data: T; timestamp: number; error: Error | null }];
    [setError] stores [data: null], hence [option T]. *)
Record CacheEntry : Type := mkEntry {
  data : option T;
  timestamp : Z;
  error : option Err;
}.

(** An instance of the class, with the part of the host its methods read
    and write: [now] is what [Date.now()] returns, [timers] the callbacks
    registered with [setTimeout] that have not run yet, oldest first. *)
Record World : Type := mkWorld {
  cache : gmap string CacheEntry;
  defaultTTL : Z;
  now : Z;
  timers : list Host.Timer;
}.

(** [constructor(defaultTTL: number = 5 * 60 * 1000)], created at instant
    [t0] with no timer pending. *)
Definition create (ttl : option Z) (t0 : Z) : World :=
  {| cache := ∅;
     defaultTTL := default (5 * 60 * 1000) ttl;
     now := t0;
     timers := [] |}.

(** [export const createQueryCache = (ttl?: number) => new QueryCache(ttl)]. *)
Definition createQueryCache (ttl : option Z) (t0 : Z) : World := create ttl t0.

Definition with_cache (m : gmap string CacheEntry) (w : World) : World :=
  {| cache := m; defaultTTL := defaultTTL w; now := now w; timers := timers w |}.

(** [set<T>(key, data, ttl = this.defaultTTL)]: writes the entry, then
    registers the deleting callback; an earlier timer for the same key is
    left in place. *)
Definition set (key : string) (d : option T) (ttl : option Z) (w : World) : World :=
  let ttl := default (defaultTTL w) ttl in
  {| cache := <[key := {| data := d; timestamp := now w; error := None |}]> (cache w);
     defaultTTL := defaultTTL w;
     now := now w;
     timers := timers w ++ [(now w + Host.timerDelay ttl, key)] |}.

(** [get<T>(key): T | null], with the world it leaves behind. *)
Definition get (key : string) (w : World) : option T * World :=
  match cache w !! key with
  | None => (None, w)
  | Some entry =>
      let age := now w - timestamp entry in
      if age >? defaultTTL w
      then (None, with_cache (base.delete key (cache w)) w)
      else (data entry, w)
  end.

Definition has (key : string) (w : World) : bool :=
  bool_decide (is_Some (cache w !! key)).

Definition clear (w : World) : World := with_cache ∅ w.

Definition delete (key : string) (w : World) : World :=
  with_cache (base.delete key (cache w)) w.

(** [setError(key, error)]: no [setTimeout] here. *)
Definition setError (key : string) (e : Err) (w : World) : World :=
  with_cache
    (<[key := {| data := None; timestamp := now w; error := Some e |}]> (cache w)) w.

Definition getSize (w : World) : nat := size (cache w).

(** *** Time passing

    [advance d] lets [d] milliseconds pass with no call into the cache:
    the clock moves to [now + d] and every timer due by then runs its
    callback and is dropped.  The callbacks only delete keys, so the order
    in which they run does not matter. *)
Definition fires (t : Z) (tm : Host.Timer) : Prop := Host.due tm ≤ t.

#[global] Instance fires_dec t tm : Decision (fires t tm) :=
  decide (Host.due tm ≤ t).

Definition run_timers (t : Z) (tms : list Host.Timer)
    (m : gmap string CacheEntry) : gmap string CacheEntry :=
  foldl (λ m tm, if decide (fires t tm) then base.delete (Host.target tm) m else m) m tms.

Definition advance (d : Z) (w : World) : World :=
  let t := now w + d in
  {| cache := run_timers t (timers w) (cache w);
     defaultTTL := defaultTTL w;
     now := t;
     timers := filter (λ tm, ¬ fires t tm) (timers w) |}.

(** *** Call sequences *)
Inductive Op : Type :=
| OpSet (key : string) (d : option T) (ttl : option Z)
| OpGet (key : string)
| OpHas (key : string)
| OpClear
| OpDelete (key : string)
| OpSetError (key : string) (e : Err)
| OpGetSize
| OpAdvance (d : Z).

Definition step (op : Op) (w : World) : World :=
  match op with
  | OpSet key d ttl => set key d ttl w
  | OpGet key => (get key w).2
  | OpHas _ | OpGetSize => w
  | OpClear => clear w
  | OpDelete key => delete key w
  | OpSetError key e => setError key e w
  | OpAdvance d => advance d w
  end.

Definition run (ops : list Op) (w : World) : World := foldl (λ w op, step op w) w ops.

(** *** Vocabulary of the properties

    [pending key w]: some timer registered by an earlier [set key] has not
    run yet.  [stale key w]: the entry of [key] is older than the default
    TTL, so that [get key] would evict it. *)
Definition pending (key : string) (w : World) : Prop :=
  Exists (λ tm, Host.target tm = key) (timers w).

(** [timer_runs key t w]: one of the pending timers deletes [key] by the
    time the clock reads [t]. *)
Definition timer_runs (key : string) (t : Z) (w : World) : Prop :=
  Exists (λ tm, fires t tm ∧ Host.target tm = key) (timers w).

Definition stale (key : string) (w : World) : bool :=
  match cache w !! key with
  | Some entry => now w - timestamp entry >? defaultTTL w
  | None => false
  end.

(** [disturbs key op w]: in world [w] the call [op] overwrites or removes
    the entry of [key]: a [set] or [setError] of that key, a [delete] of
    it, a [clear], or a [get] that finds it stale. *)
Definition disturbs (key : string) (op : Op) (w : World) : bool :=
  match op with
  | OpSet k _ _ | OpSetError k _ | OpDelete k => bool_decide (k = key)
  | OpClear => true
  | OpGet k => bool_decide (k = key) && stale key w
  | OpHas _ | OpGetSize | OpAdvance _ => false
  end.

(** No call of the sequence disturbs [key], each call being judged in the
    world it runs in. *)
Fixpoint quiet (key : string) (ops : list Op) (w : World) : bool :=
  match ops with
  | [] => true
  | op :: rest => negb (disturbs key op w) && quiet key rest (step op w)
  end.

End Defs.

Arguments CacheEntry : clear implicits.
Arguments World : clear implicits.
Arguments Op : clear implicits.

End QueryCache.

(** ** What a query of the supabase client answers *)

Module Supabase.

(** The promise of a query is fulfilled with [{ data, error }].  A query
    that the server refuses or cannot answer still fulfils its promise,
    with [data: null] and the reason in [error]; the promise rejects only
    when the call itself throws.  [data] is the selected column of the
    rows found. *)
Record Response (Err : Type) : Type := mkResponse {
  data : option (list string);
  error : option Err;
}.
Arguments mkResponse {Err} data error.
Arguments data {Err} r.
Arguments error {Err} r.

End Supabase.

(** ** The paginated fetch of the Media page *)

Module Media.
Section Defs.

(** [Row] is a record of [media_content] restricted to the selected
    fields; only three of them are read here.  [Err] is the type of the
    reasons a promise can reject with. *)
Context {Row Err : Type}.
Context (row_id row_type row_creator_name : Row → string).

Definition ITEMS_PER_PAGE : Z := 12.

(** [const startIdx = (currentPage - 1) * ITEMS_PER_PAGE], the page size
    being left as an argument. *)
Definition startIdx (itemsPerPage currentPage : Z) : Z :=
  (currentPage - 1) * itemsPerPage.

(** [.range(from, to)] of the query builder: the rows at the zero-based
    positions [from] to [to], both included (the builder sends offset
    [from] and limit [to - from + 1]).  Only the slice is modelled, not the
    error answers of the server; the queries below send [from >= 0]
    whenever [currentPage >= 1]. *)
Definition range (from to : Z) (rows : list Row) : list Row :=
  take (Z.to_nat (to - from + 1)) (drop (Z.to_nat from) rows).

(** [{ data, count }] of a select with [{ count: 'exact' }]. *)
Record ContentPage : Type := mkPage {
  media : list Row;
  count : nat;
}.

(** The content query:
    [from('media_content').select(SELECTED_FIELDS, { count: 'exact' })
       .eq('type', activeTab).range(startIdx, startIdx + ITEMS_PER_PAGE - 1)]
    over the table [rows], in the order the server returns them.  This
    is one answer of the server: the query has no [.order()], so nothing
    is said about the order of rows from one request to the next, nor
    about the answer to an offset beyond the count. *)
Definition contentQuery (rows : list Row) (activeTab : string)
    (itemsPerPage currentPage : Z) : ContentPage :=
  let matching := filter (λ r, row_type r = activeTab) rows in
  let startIdx := startIdx itemsPerPage currentPage in
  {| media := range startIdx (startIdx + itemsPerPage - 1) matching;
     count := length matching |}.

(** *** Promises

    A promise is given by the instant it settles and the way it settles. *)
Inductive Settled (A : Type) : Type :=
| Fulfilled (value : A)
| Rejected (reason : Err).
Arguments Fulfilled {A} value.
Arguments Rejected {A} reason.

Record Promise (A : Type) : Type := mkPromise {
  settledAt : nat;
  outcome : Settled A;
}.
Arguments mkPromise {A} settledAt outcome.
Arguments settledAt {A} p.
Arguments outcome {A} p.

(** [Promise.all([p, q])]: fulfilled with both values once both are
    fulfilled, rejected with the reason of the first input to reject. *)
Definition Promise_all {A B : Type} (p : Promise A) (q : Promise B) : Promise (A * B) :=
  match outcome p, outcome q with
  | Fulfilled a, Fulfilled b =>
      mkPromise (settledAt p `max` settledAt q) (Fulfilled (a, b))
  | Rejected e, Fulfilled _ => mkPromise (settledAt p) (Rejected e)
  | Fulfilled _, Rejected e => mkPromise (settledAt q) (Rejected e)
  | Rejected e1, Rejected e2 =>
      if decide (settledAt p ≤ settledAt q)%nat
      then mkPromise (settledAt p) (Rejected e1)
      else mkPromise (settledAt q) (Rejected e2)
  end.

(** [await p] either yields the value or throws the reason. *)
Definition await {A : Type} (p : Promise A) : Settled A := outcome p.

(** A content item with the two derived flags. *)
Record PageItem : Type := mkItem {
  item : Row;
  isLiked : bool;
  isFollowed : bool;
}.

Definition merge (likes follows : list string) (r : Row) : PageItem :=
  {| item := r;
     isLiked := bool_decide (row_id r ∈ likes);
     isFollowed := bool_decide (row_creator_name r ∈ follows) |}.

(** [const [{ data: userLikes }, { data: userFollows }] =
      await Promise.all([likesQuery, followsQuery])]:
    the two responses are joined and only their [data] is kept; the
    [error] of a response is bound to no name. *)
Definition userInteractions (likesQuery followsQuery : Promise (Supabase.Response Err))
    : Promise (option (list string) * option (list string)) :=
  let joined := Promise_all likesQuery followsQuery in
  mkPromise (settledAt joined)
    match await joined with
    | Fulfilled (likes, follows) => Fulfilled (Supabase.data likes, Supabase.data follows)
    | Rejected e => Rejected e
    end.

(** Modelled from the spec: the interaction set a query result is turned
    into, which [src/pages/Media.tsx] builds and is not among the sources
    (the reports only show that the sets are kept as [Set<string>]).  A
    [null] result has no member. *)
Definition interactionSet (data : option (list string)) : list string :=
  default [] data.

(** Modelled from the spec: the body of [loadPage] once the content page
    is in hand, which lives in [src/pages/Media.tsx] and is not among the
    sources; only the content query and the two interaction queries joined
    by [Promise.all] are quoted in the reports.  Following sections 4.2 and
    5 of the specification: an unauthenticated request skips the
    interaction queries and marks nothing liked or followed; an
    authenticated one awaits the joined queries and then derives both flags
    by membership in the two interaction sets, a reason thrown by the
    [await] being surfaced to the caller.  [rows] is the table as the
    content query reads it; [settledAt] counts from the moment the content
    page is in hand. *)
Definition loadPage (rows : list Row) (category : string)
    (pageNumber : Z) (userId : option string)
    (likesQuery followsQuery : Promise (Supabase.Response Err))
    : Promise (list PageItem) :=
  let page := media (contentQuery rows category ITEMS_PER_PAGE pageNumber) in
  match userId with
  | None => mkPromise 0 (Fulfilled (merge [] [] <$> page))
  | Some _ =>
      let interactions := userInteractions likesQuery followsQuery in
      mkPromise (settledAt interactions)
        match await interactions with
        | Rejected e => Rejected e
        | Fulfilled (userLikes, userFollows) =>
            Fulfilled (merge (interactionSet userLikes) (interactionSet userFollows)
                         <$> page)
        end
  end.

End Defs.

Arguments Settled : clear implicits.
Arguments Promise : clear implicits.
Arguments Fulfilled {Err A} value.
Arguments Rejected {Err A} reason.
Arguments mkPromise {Err A} settledAt outcome.
Arguments settledAt {Err A} p.
Arguments outcome {Err A} p.

End Media.

(** ** Concrete caches and tables used in the examples *)

Module Scenario.

(** [globalQueryCache = new QueryCache()], payloads and error messages
    being strings, at instant 0. *)
Definition globalQueryCache : QueryCache.World string string :=
  QueryCache.create None 0.

(** [createQueryCache(-1)]. *)
Definition negativeCache : QueryCache.World string string :=
  QueryCache.createQueryCache (Some (-1)) 0.

(** A page stored for ten minutes in a cache whose default TTL is five. *)
Definition tenMinutePage : QueryCache.World string string :=
  QueryCache.set "k" (Some "v") (Some 600000) (QueryCache.create (Some 300000) 0).

(** A page stored for one hour in the global cache. *)
Definition hourPage : QueryCache.World string string :=
  QueryCache.set "stream:page1" (Some "items") (Some 3600000) globalQueryCache.

(** A successful fetch stored with the default TTL, then, 200 seconds
    later, a failed refetch recorded with [setError]. *)
Definition failedRefetch : QueryCache.World string string :=
  QueryCache.setError "profile:42" "offline"
    (QueryCache.advance 200000
       (QueryCache.set "profile:42" (Some "row") None globalQueryCache)).

(** A short-lived entry overwritten at once by an error. *)
Definition shortThenError : QueryCache.World string string :=
  QueryCache.setError "k" "boom"
    (QueryCache.set "k" (Some "v") (Some 1000) globalQueryCache).

(** Rows of [media_content], reduced to the columns read here. *)
Record MediaRow : Type := mkRow {
  id : string;
  type : string;
  creator_name : string;
}.

Definition table : list MediaRow :=
  [ mkRow "m1" "stream" "Jasmine Carter";
    mkRow "m2" "listen" "DJ Alex";
    mkRow "m3" "stream" "David Lee";
    mkRow "m4" "stream" "DJ Marcus" ].

End Scenario.

(** ** [lazyImage.ts] and the responsive-image helper *)

Module Images.

(** [String.prototype.includes]: [needle] occurs somewhere in [s].  The
    needles used below are ASCII, for which searching bytes and searching
    UTF-16 code units find the same occurrences. *)
Fixpoint includes (needle s : string) : bool :=
  String.prefix needle s ||
  match s with
  | EmptyString => false
  | String _ rest => includes needle rest
  end.

(** [`${width}`] for a whole number: its decimal digits, with a leading
    minus sign when negative (as JavaScript prints integers below 10^21 in
    magnitude). *)
Definition numberToString (n : Z) : string := pretty n.

(** [export const getOptimizedImageUrl = (url: string, width?: number): string].
    [!url] holds for the empty string only; [if (width)] fails for a
    missing width and for 0. *)
Definition getOptimizedImageUrl (url : string) (width : option Z) : string :=
  if bool_decide (url = "") then ""
  else if includes "pexels.com" url then
    match width with
    | Some w =>
        if bool_decide (w ≠ 0) then
          let separator := if includes "?" url then "&" else "?" in
          url +:+ separator +:+ "w=" +:+ numberToString w +:+ "&q=75"
        else url
    | None => url
    end
  else url.

(** [export const createImageSet = (url: string): string]. *)
Definition createImageSet (url : string) : string :=
  let mobile := getOptimizedImageUrl url (Some 400) in
  let tablet := getOptimizedImageUrl url (Some 600) in
  let desktop := getOptimizedImageUrl url (Some 800) in
  mobile +:+ " 400w, " +:+ tablet +:+ " 600w, " +:+ desktop +:+ " 800w".

(** The helper proposed for [src/services/imageOptimization.ts]:
    [size: 'small' | 'medium' | 'large'] and its [sizeMap]. *)
Inductive Size : Type := small | medium | large.

Definition sizeMap (size : Size) : Z :=
  match size with
  | small => 400
  | medium => 600
  | large => 800
  end.

Definition getResponsiveImageUrl (url : string) (size : Size) : string :=
  url +:+ "?w=" +:+ numberToString (sizeMap size) +:+ "&q=75".

End Images.

(** ** [retryFetch.ts] *)

Module Retry.
Section Defs.

Context {Err A : Type}.

(** What a call of [retryFetch] comes to: the value it returns or the
    value it throws ([None] is [undefined], the initial [lastError]), the
    number of times [fn] was called and the milliseconds spent waiting. *)
Inductive Completion : Type :=
| Returned (value : A)
| Thrown (lastError : option Err).

Record Run : Type := mkRun {
  completion : Completion;
  calls : nat;
  waited : Z;
}.

(** [const delay = Math.pow(2, i) * 1000]. *)
Definition delay (i : nat) : Z := 2 ^ Z.of_nat i * 1000.

(** The [for] loop from index [i] on, [remaining] iterations being left.
    [fn j] is how the call number [j] of the thunk settles; the wait after
    a failure is what [setTimeout] makes of [delay i]. *)
Fixpoint retryLoop (fn : nat → Media.Settled Err A) (remaining i : nat)
    (lastError : option Err) (waited : Z) : Run :=
  match remaining with
  | O => {| completion := Thrown lastError; calls := i; waited := waited |}
  | S remaining' =>
      match fn i with
      | Media.Fulfilled value =>
          {| completion := Returned value; calls := S i; waited := waited |}
      | Media.Rejected error =>
          retryLoop fn remaining' (S i) (Some error)
                    (waited + Host.timerDelay (delay i))
      end
  end.

(** [const retryFetch = async (fn, maxRetries = 3)]: the loop runs while
    [i < maxRetries], that is [maxRetries] times, and not at all when
    [maxRetries] is zero or negative. *)
Definition retryFetch (fn : nat → Media.Settled Err A) (maxRetries : option Z) : Run :=
  retryLoop fn (Z.to_nat (default 3 maxRetries)) 0 None 0.

End Defs.

Arguments Completion : clear implicits.
Arguments Run : clear implicits.

End Retry.

(** ** The page cache of [Media.tsx] *)

Module PageCache.

Definition CACHE_DURATION : Z := 5 * 60 * 1000.

(** [interface CacheEntry { data: MediaItem[]; timestamp: number }]. *)
Record CacheEntry (MediaItem : Type) : Type := mkEntry {
  data : list MediaItem;
  timestamp : Z;
}.
Arguments mkEntry {MediaItem} data timestamp.
Arguments data {MediaItem} c.
Arguments timestamp {MediaItem} c.

(** [if (cachedEntry && now - cachedEntry.timestamp < CACHE_DURATION && !user)]. *)
Definition servesCached {MediaItem User : Type}
    (cachedEntry : option (CacheEntry MediaItem)) (now : Z) (user : option User) : bool :=
  match cachedEntry with
  | Some entry =>
      (now - timestamp entry <? CACHE_DURATION) && bool_decide (user = None)
  | None => false
  end.

End PageCache.

(** ** Vocabulary for call sequences *)

Module Calls.
Section Defs.

Context {T Err : Type}.

(** The key a call names, if any. *)
Definition key_of (op : QueryCache.Op T Err) : option string :=
  match op with
  | QueryCache.OpSet k _ _ | QueryCache.OpGet k | QueryCache.OpHas k
  | QueryCache.OpDelete k | QueryCache.OpSetError k _ => Some k
  | QueryCache.OpClear | QueryCache.OpGetSize | QueryCache.OpAdvance _ => None
  end.

Definition is_wait (op : QueryCache.Op T Err) : bool :=
  match op with QueryCache.OpAdvance _ => true | _ => false end.

Definition is_set (op : QueryCache.Op T Err) : bool :=
  match op with QueryCache.OpSet _ _ _ => true | _ => false end.

(** The timer a call registers: one for each [set], none otherwise. *)
Definition registered (op : QueryCache.Op T Err) (w : QueryCache.World T Err)
    : list Host.Timer :=
  match op with
  | QueryCache.OpSet k _ ttl =>
      [(QueryCache.now w
        + Host.timerDelay (default (QueryCache.defaultTTL w) ttl), k)]
  | _ => []
  end.

(** Every entry that carries data has a timer waiting to delete it. *)
Definition scheduled (w : QueryCache.World T Err) : Prop :=
  ∀ k entry, QueryCache.cache w !! k = Some entry →
             QueryCache.error entry = None → QueryCache.pending k w.

End Defs.
End Calls.

(** * Properties of the query cache *)

Import QueryCache.

Section CacheFacts.

Context {T Err : Type}.
Implicit Types (w : World T Err) (m : gmap string (CacheEntry T Err)).
Implicit Types (tms : list Host.Timer) (k key : string) (t d : Z).

(** ** Timers only ever delete *)

Lemma run_timers_cons t tm tms m :
  run_timers t (tm :: tms) m =
  run_timers t tms (if decide (fires t tm) then base.delete (Host.target tm) m else m).
Proof. reflexivity. Qed.

Lemma run_timers_lookup_absent t tms m k :
  m !! k = None → run_timers t tms m !! k = None.
Proof.
  revert m. induction tms as [|tm tms IH]; intros m Hm; [exact Hm|].
  rewrite run_timers_cons. apply IH.
  case_decide; [|exact Hm].
  destruct (decide (Host.target tm = k)) as [->|Hne].
  - apply lookup_delete_eq.
  - rewrite lookup_delete_ne; [exact Hm|exact Hne].
Qed.

Lemma run_timers_lookup_fired t tms m k :
  Exists (λ tm, fires t tm ∧ Host.target tm = k) tms →
  run_timers t tms m !! k = None.
Proof.
  intros Hex. revert m.
  induction Hex as [tm tms [Hf Hk]|tm tms _ IH]; intros m; rewrite run_timers_cons.
  - apply run_timers_lookup_absent.
    rewrite decide_True by exact Hf. subst k. apply lookup_delete_eq.
  - apply IH.
Qed.

Lemma run_timers_lookup_kept t tms m k :
  Forall (λ tm, fires t tm → Host.target tm ≠ k) tms →
  run_timers t tms m !! k = m !! k.
Proof.
  intros Hall. revert m.
  induction Hall as [|tm tms Hhd _ IH]; intros m; [reflexivity|].
  rewrite run_timers_cons, IH.
  case_decide as Hf; [|reflexivity].
  apply lookup_delete_ne, Hhd, Hf.
Qed.

Lemma run_timers_lookup_Some t tms m k entry :
  run_timers t tms m !! k = Some entry → m !! k = Some entry.
Proof.
  intros Hrun. destruct (m !! k) as [e|] eqn:Hm.
  - destruct (decide (Exists (λ tm, fires t tm ∧ Host.target tm = k) tms)) as [Hex|Hno].
    + rewrite (run_timers_lookup_fired _ _ _ _ Hex) in Hrun. discriminate.
    + rewrite run_timers_lookup_kept in Hrun; [congruence|].
      apply Forall_forall. intros tm Hin Hf Hk. apply Hno.
      apply Exists_exists. eauto.
  - rewrite (run_timers_lookup_absent _ _ _ _ Hm) in Hrun. discriminate.
Qed.

(** Without a pending timer for [k], the passing of time leaves the entry
    of [k] alone, and leaves no timer for [k] behind. *)
Lemma advance_lookup_not_pending d w k :
  ¬ pending k w → cache (advance d w) !! k = cache w !! k.
Proof.
  intros Hnp. unfold advance; simpl. apply run_timers_lookup_kept.
  apply Forall_forall. intros tm Hin _ Hk. apply Hnp.
  apply Exists_exists. eauto.
Qed.

Lemma advance_lookup_timer_runs d w k :
  timer_runs k (now w + d) w → cache (advance d w) !! k = None.
Proof. intros Hex. unfold advance; simpl. apply run_timers_lookup_fired, Hex. Qed.

Lemma advance_lookup_no_timer_runs d w k :
  ¬ timer_runs k (now w + d) w → cache (advance d w) !! k = cache w !! k.
Proof.
  intros Hno. unfold advance; simpl. apply run_timers_lookup_kept.
  apply Forall_forall. intros tm Hin Hf Hk. apply Hno.
  apply Exists_exists. eauto.
Qed.

Lemma not_pending_no_timer_runs w k t : ¬ pending k w → ¬ timer_runs k t w.
Proof.
  intros Hnp Hex. apply Hnp.
  apply Exists_exists in Hex as (tm & Hin & _ & Hk).
  apply Exists_exists. eauto.
Qed.

Lemma timerDelay_in_range ttl :
  0 ≤ ttl ≤ Host.MAX_TIMEOUT → Host.timerDelay ttl = ttl.
Proof.
  unfold Host.MAX_TIMEOUT, Host.timerDelay, Host.toInt32. intros H.
  rewrite Z.mod_small by lia. lia.
Qed.

Lemma advance_not_pending d w k : ¬ pending k w → ¬ pending k (advance d w).
Proof.
  unfold pending, advance; simpl. intros Hnp Hex. apply Hnp.
  apply Exists_exists in Hex as (tm & Hin & Hk).
  apply list_elem_of_filter in Hin as [_ Hin].
  apply Exists_exists. eauto.
Qed.

(** The entry of [k] after a wait: gone when a timer for [k] has run,
    untouched otherwise. *)
Lemma run_timers_lookup t tms m k :
  run_timers t tms m !! k =
  if decide (Exists (λ tm, fires t tm ∧ Host.target tm = k) tms) then None else m !! k.
Proof.
  case_decide as Hex.
  - apply run_timers_lookup_fired, Hex.
  - apply run_timers_lookup_kept, Forall_forall.
    intros tm Hin Hf Hk. apply Hex, Exists_exists. eauto.
Qed.

(** Two waits in a row amount to one. *)
Lemma run_timers_twice t1 t2 tms m :
  t1 ≤ t2 →
  run_timers t2 (filter (λ tm, ¬ fires t1 tm) tms) (run_timers t1 tms m)
  = run_timers t2 tms m.
Proof.
  intros Hle. apply map_eq. intros k. rewrite !run_timers_lookup.
  destruct (decide (Exists (λ tm, fires t2 tm ∧ Host.target tm = k) tms)) as [H2|H2].
  - destruct (decide (Exists (λ tm, fires t2 tm ∧ Host.target tm = k)
                        (filter (λ tm, ¬ fires t1 tm) tms))) as [|Hlate]; [reflexivity|].
    destruct (decide (Exists (λ tm, fires t1 tm ∧ Host.target tm = k) tms))
      as [|Hearly]; [reflexivity|].
    exfalso. apply Exists_exists in H2 as (tm & Hin & Hf & Hk).
    destruct (decide (fires t1 tm)) as [Hf1|Hf1].
    + apply Hearly, Exists_exists. eauto.
    + apply Hlate, Exists_exists. exists tm. split; [|split; assumption].
      apply list_elem_of_filter. split; assumption.
  - destruct (decide (Exists (λ tm, fires t2 tm ∧ Host.target tm = k)
                        (filter (λ tm, ¬ fires t1 tm) tms))) as [Hlate|_].
    { exfalso. apply H2. apply Exists_exists in Hlate as (tm & Hin & Hf & Hk).
      apply list_elem_of_filter in Hin as [_ Hin]. apply Exists_exists. eauto. }
    destruct (decide (Exists (λ tm, fires t1 tm ∧ Host.target tm = k) tms))
      as [Hearly|_]; [|reflexivity].
    exfalso. apply H2. apply Exists_exists in Hearly as (tm & Hin & Hf & Hk).
    apply Exists_exists. exists tm. split; [exact Hin|]. split; [|exact Hk].
    unfold fires in *. lia.
Qed.

Lemma advance_advance d1 d2 w :
  0 ≤ d2 → advance d2 (advance d1 w) = advance (d1 + d2) w.
Proof.
  intros Hd2. unfold advance; simpl.
  rewrite <- Z.add_assoc. f_equal.
  - apply run_timers_twice. lia.
  - rewrite list_filter_filter. apply list_filter_iff.
    intros tm. unfold fires. lia.
Qed.

Lemma get_absent w k : cache w !! k = None → get k w = (None, w).
Proof. intros H. unfold get. rewrite H. reflexivity. Qed.

Lemma get_fresh w k entry :
  cache w !! k = Some entry → now w - timestamp entry ≤ defaultTTL w →
  get k w = (data entry, w).
Proof.
  intros H Hage. unfold get. rewrite H. simpl.
  destruct (Z.gtb_spec (now w - timestamp entry) (defaultTTL w)); [lia|reflexivity].
Qed.

Lemma get_stale w k entry :
  cache w !! k = Some entry → defaultTTL w < now w - timestamp entry →
  get k w = (None, delete k w).
Proof.
  intros H Hage. unfold get. rewrite H. simpl.
  destruct (Z.gtb_spec (now w - timestamp entry) (defaultTTL w)); [reflexivity|lia].
Qed.

(** What [get] hands back for a stored entry: its data up to and including
    the age [defaultTTL], nothing beyond. *)
Lemma get_stored_value w k entry v :
  cache w !! k = Some entry → data entry = Some v →
  (get k w).1 = Some v ↔ now w - timestamp entry ≤ defaultTTL w.
Proof.
  intros H Hv. split.
  - intros Hget. destruct (Z_le_gt_dec (now w - timestamp entry) (defaultTTL w)) as [|Hgt];
      [assumption|].
    rewrite (get_stale w k entry) in Hget by (assumption || lia). discriminate.
  - intros Hage. rewrite (get_fresh w k entry) by assumption. exact Hv.
Qed.

(** Once more than the default TTL has passed since [set], [get] answers
    [null], whatever TTL the entry was stored with. *)
Lemma get_after_default_ttl w k v ttl d :
  defaultTTL w < d → (get k (advance d (set k v ttl w))).1 = None.
Proof.
  intros Hd. set (w1 := set k v ttl w).
  destruct (cache (advance d w1) !! k) as [entry|] eqn:Hlk.
  - assert (Hentry : cache w1 !! k = Some entry)
      by (eapply run_timers_lookup_Some; exact Hlk).
    unfold w1, set in Hentry; simpl in Hentry.
    rewrite lookup_insert_eq in Hentry. injection Hentry as <-.
    rewrite (get_stale _ _ _ Hlk); [reflexivity|]. simpl. lia.
  - rewrite get_absent by exact Hlk. reflexivity.
Qed.

(** An entry stored with the default TTL is deleted by its own timer at
    the instant its age reaches that TTL. *)
Lemma set_default_ttl_gone_at_ttl w k v :
  0 ≤ defaultTTL w ≤ Host.MAX_TIMEOUT →
  cache (advance (defaultTTL w) (set k v None w)) !! k = None.
Proof.
  intros Hrange. apply advance_lookup_timer_runs.
  unfold timer_runs, set; simpl. apply Exists_app. right. apply Exists_cons_hd.
  split; [|reflexivity].
  unfold fires, Host.due; simpl. rewrite timerDelay_in_range by exact Hrange. lia.
Qed.

(** An entry stored with a longer TTL is still handed out when its age
    equals the default TTL. *)
Lemma get_at_default_ttl_longer_ttl w k v ttl :
  ¬ pending k w →
  0 ≤ defaultTTL w < ttl → ttl ≤ Host.MAX_TIMEOUT →
  get k (advance (defaultTTL w) (set k v (Some ttl) w))
  = (v, advance (defaultTTL w) (set k v (Some ttl) w)).
Proof.
  intros Hnp Hlt Hmax.
  rewrite (get_fresh _ k (mkEntry v (now w) None)); [reflexivity| |simpl; lia].
  rewrite advance_lookup_no_timer_runs.
  - unfold set; simpl. apply lookup_insert_eq.
  - unfold timer_runs, set; simpl. intros Hex.
    apply Exists_app in Hex as [Hex|Hex].
    + apply Hnp. apply Exists_exists in Hex as (tm & Hin & _ & Hk).
      apply Exists_exists. eauto.
    + apply Exists_cons in Hex as [[Hf _]|Hex]; [|apply Exists_nil in Hex; exact Hex].
      unfold fires, Host.due in Hf; simpl in Hf.
      rewrite timerDelay_in_range in Hf by lia. lia.
Qed.

Lemma clear_empties w : getSize (clear w) = 0%nat.
Proof. unfold getSize, clear; simpl. apply map_size_empty. Qed.

End CacheFacts.

Section CacheClaims.

Context {T Err : Type}.
Implicit Types (w : World T Err) (k : string) (v : option T) (ttl : option Z).

(** C3. In a cache whose default TTL is not negative, [set(k, v, t)]
    followed at once by [get(k)], the clock not having moved, returns [v]
    for every key, value and TTL (given or defaulted), and the read leaves
    the cache as [set] left it.  (With a negative default TTL every entry
    is stale from the start.) *)
Theorem set_then_get_returns_value w k v ttl :
  0 ≤ defaultTTL w →
  get k (set k v ttl w) = (v, set k v ttl w).
Proof.
  intros Httl.
  rewrite (get_fresh _ k (mkEntry v (now w) None)); [reflexivity| |].
  - unfold set; simpl. apply lookup_insert_eq.
  - simpl. lia.
Qed.

(** C5. [has(k)] is true exactly when the store holds an entry for [k];
    no age is looked at: for an entry older than the default TTL that is
    still in the store, [has(k)] is true although [get(k)] returns
    nothing. *)
Theorem has_ignores_staleness w k :
  (has k w = true ↔ is_Some (cache w !! k)) ∧
  (∀ entry, cache w !! k = Some entry →
            defaultTTL w < now w - timestamp entry →
            has k w = true ∧ (get k w).1 = None).
Proof.
  split.
  - unfold has. apply bool_decide_eq_true.
  - intros entry Hlk Hage. split.
    + unfold has. apply bool_decide_eq_true. rewrite Hlk. eauto.
    + rewrite (get_stale w k entry) by assumption. reflexivity.
Qed.

(** C6. After [delete(k)], [get(k)] returns nothing and [has(k)] is
    false; the entry of [k] is removed whatever it was, every other entry
    stays, and when there was no entry for [k] nothing changes at all. *)
Theorem delete_removes_entry w k :
  (get k (delete k w)).1 = None ∧
  has k (delete k w) = false ∧
  cache (delete k w) !! k = None ∧
  (∀ k', k' ≠ k → cache (delete k w) !! k' = cache w !! k') ∧
  (cache w !! k = None → delete k w = w).
Proof.
  assert (Hgone : cache (delete k w) !! k = None)
    by (unfold delete; simpl; apply lookup_delete_eq).
  repeat split.
  - rewrite get_absent by exact Hgone. reflexivity.
  - unfold has. apply bool_decide_eq_false. rewrite Hgone. apply is_Some_None.
  - exact Hgone.
  - intros k' Hne. unfold delete; simpl. apply lookup_delete_ne. congruence.
  - intros Habs. unfold delete, with_cache.
    rewrite delete_id by exact Habs. destruct w; reflexivity.
Qed.

(** C4 (amended). After [setError(k, e)], a later [get(k)] returns no
    data, however much time has passed.  When the read comes within the
    default TTL of the write and no timer left by an earlier [set(k, ...)]
    has run in between, the read changes nothing and the sentinel entry
    carrying [e] is still in the cache. *)
Theorem setError_then_get w k (e : Err) d :
  let w' := advance d (setError k e w) in
  (get k w').1 = None ∧
  (d ≤ defaultTTL w → ¬ timer_runs k (now w + d) w →
   get k w' = (None, w') ∧
   cache w' !! k = Some (mkEntry None (now w) (Some e)) ∧
   has k w' = true).
Proof.
  intros w'.
  assert (Hwritten : cache (setError k e w) !! k = Some (mkEntry None (now w) (Some e)))
    by (unfold setError; simpl; apply lookup_insert_eq).
  split.
  - destruct (cache w' !! k) as [entry|] eqn:Hlk.
    + apply run_timers_lookup_Some in Hlk as Hentry.
      rewrite Hwritten in Hentry. injection Hentry as <-.
      unfold get. rewrite Hlk. simpl. destruct (_ >? _); reflexivity.
    + rewrite get_absent by exact Hlk. reflexivity.
  - intros Hd Hno.
    assert (Hlk : cache w' !! k = Some (mkEntry None (now w) (Some e))).
    { unfold w'. rewrite advance_lookup_no_timer_runs; [exact Hwritten|exact Hno]. }
    repeat split.
    + rewrite (get_fresh w' k _ Hlk); [reflexivity|]. simpl. lia.
    + exact Hlk.
    + unfold has. apply bool_decide_eq_true. rewrite Hlk. eauto.
Qed.

(** ** Sequences of calls *)

Lemma pending_set_other w k k' v ttl :
  k' ≠ k → ¬ pending k w → ¬ pending k (set k' v ttl w).
Proof.
  unfold pending, set; simpl. intros Hne Hnp Hex.
  apply Exists_app in Hex as [Hex|Hex]; [exact (Hnp Hex)|].
  apply Exists_cons in Hex as [Hk|Hex]; [exact (Hne Hk)|].
  apply Exists_nil in Hex. exact Hex.
Qed.

Lemma step_keeps_entry (op : Op T Err) w k entry :
  cache w !! k = Some entry → ¬ pending k w → disturbs k op w = false →
  cache (step op w) !! k = Some entry ∧ ¬ pending k (step op w).
Proof.
  intros Hlk Hnp Hq.
  destruct op as [k' v ttl|k'|k'| |k'|k' e'| |d]; cbn [step disturbs] in *.
  - apply bool_decide_eq_false in Hq. split.
    + unfold set; simpl. rewrite lookup_insert_ne by exact Hq. exact Hlk.
    + apply pending_set_other; assumption.
  - unfold get. destruct (decide (k' = k)) as [->|Hne].
    + rewrite bool_decide_eq_true_2 in Hq by reflexivity. simpl in Hq.
      unfold stale in Hq. rewrite Hlk in Hq. rewrite Hlk. simpl. rewrite Hq.
      split; assumption.
    + destruct (cache w !! k') as [entry'|]; [|split; assumption].
      simpl. destruct (_ >? _); [|split; assumption].
      simpl. split; [|exact Hnp].
      rewrite lookup_delete_ne by exact Hne. exact Hlk.
  - split; assumption.
  - discriminate.
  - apply bool_decide_eq_false in Hq. split; [|exact Hnp].
    unfold delete; simpl. rewrite lookup_delete_ne by exact Hq. exact Hlk.
  - apply bool_decide_eq_false in Hq. split; [|exact Hnp].
    unfold setError; simpl. rewrite lookup_insert_ne by exact Hq. exact Hlk.
  - split; assumption.
  - split.
    + rewrite advance_lookup_not_pending by exact Hnp. exact Hlk.
    + apply advance_not_pending, Hnp.
Qed.

Lemma run_keeps_entry (ops : list (Op T Err)) w k entry :
  cache w !! k = Some entry → ¬ pending k w → quiet k ops w = true →
  cache (run ops w) !! k = Some entry.
Proof.
  revert w. induction ops as [|op ops IH]; intros w Hlk Hnp Hq; [exact Hlk|].
  simpl in Hq. apply andb_true_iff in Hq as [Hop Hrest].
  apply negb_true_iff in Hop.
  destruct (step_keeps_entry op w k entry Hlk Hnp Hop) as [Hlk' Hnp'].
  exact (IH (step op w) Hlk' Hnp' Hrest).
Qed.

(** C10 (amended). [setError] registers no timer.  When, in addition, no
    timer of an earlier [set(k, ...)] is pending at the time of
    [setError(k, e)], the entry it writes stays in the store, and [has(k)]
    stays true, through every sequence of calls and waits in which the key
    is not overwritten by [set] or [setError], not removed by [delete] or
    [clear], and not read by a [get] that finds it stale. *)
Theorem setError_entry_stays w k (e : Err) (ops : list (Op T Err)) :
  ¬ pending k w →
  quiet k ops (setError k e w) = true →
  timers (setError k e w) = timers w ∧
  cache (run ops (setError k e w)) !! k = Some (mkEntry None (now w) (Some e)) ∧
  has k (run ops (setError k e w)) = true.
Proof.
  intros Hnp Hq.
  assert (Hkeep : cache (run ops (setError k e w)) !! k
                  = Some (mkEntry None (now w) (Some e))).
  { apply run_keeps_entry; [|exact Hnp|exact Hq].
    unfold setError; simpl. apply lookup_insert_eq. }
  repeat split.
  - exact Hkeep.
  - unfold has. apply bool_decide_eq_true. rewrite Hkeep. eauto.
Qed.

(** ** Overwriting a key *)

Lemma timers_set_advance_set w k v1 v2 t1 t2 d :
  0 ≤ d < t1 → t1 < t2 ≤ Host.MAX_TIMEOUT →
  timers (set k v2 (Some t2) (advance d (set k v1 (Some t1) w))) =
  filter (λ tm, ¬ fires (now w + d) tm) (timers w)
    ++ [(now w + t1, k); (now w + d + t2, k)].
Proof.
  intros Hd Ht. unfold set, advance; simpl.
  rewrite !timerDelay_in_range by lia.
  rewrite filter_app, filter_cons_True by (unfold fires, Host.due; simpl; lia).
  rewrite filter_nil, <- app_assoc. reflexivity.
Qed.

(** C9. [set] registers a deletion of the key after its TTL and nothing
    ever cancels it.  Take any cache with no timer pending for [k]; call
    [set(k, v1, t1)], wait [d < t1], call [set(k, v2, t2)] with [t2 > t1]
    (within the range of timer delays).  The timer of the first call is
    still pending; the entry holding [v2] is in the store at every instant
    before [t1] has elapsed since the first call, and it is gone at [t1],
    when it is only [t1 - d < t2] old. *)
Theorem overwritten_entry_removed_by_first_timer w k v1 v2 t1 t2 d :
  ¬ pending k w →
  0 ≤ d < t1 →
  t1 < t2 ≤ Host.MAX_TIMEOUT →
  let w2 := set k v2 (Some t2) (advance d (set k v1 (Some t1) w)) in
  (now w + t1, k) ∈ timers w2 ∧
  (∀ e, 0 ≤ e < t1 - d →
        cache (advance e w2) !! k = Some (mkEntry v2 (now w + d) None)) ∧
  now (advance (t1 - d) w2) = now w + t1 ∧
  cache (advance (t1 - d) w2) !! k = None ∧
  has k (advance (t1 - d) w2) = false.
Proof.
  intros Hnp Hd Ht w2.
  assert (Htimers : timers w2 =
            filter (λ tm, ¬ fires (now w + d) tm) (timers w)
              ++ [(now w + t1, k); (now w + d + t2, k)])
    by (apply timers_set_advance_set; assumption).
  assert (Hnow : now w2 = now w + d) by reflexivity.
  assert (Hfirst : (now w + t1, k) ∈ timers w2).
  { rewrite Htimers. apply elem_of_app. right. apply list_elem_of_here. }
  assert (Hgone : cache (advance (t1 - d) w2) !! k = None).
  { apply advance_lookup_timer_runs. apply Exists_exists.
    exists (now w + t1, k). split; [exact Hfirst|].
    split; [|reflexivity]. unfold fires, Host.due; simpl. lia. }
  repeat split.
  - exact Hfirst.
  - intros e He. rewrite advance_lookup_no_timer_runs.
    + unfold w2, set; simpl. apply lookup_insert_eq.
    + intros Hex. apply Exists_exists in Hex as (tm & Hin & Hf & Hk).
      rewrite Htimers in Hin. apply elem_of_app in Hin as [Hin|Hin].
      * apply list_elem_of_filter in Hin as [_ Hin]. apply Hnp.
        apply Exists_exists. eauto.
      * unfold fires in Hf. rewrite Hnow in Hf.
        apply elem_of_cons in Hin as [->|Hin]; [unfold Host.due in Hf; simpl in Hf; lia|].
        apply list_elem_of_singleton in Hin as ->.
        unfold Host.due in Hf; simpl in Hf. lia.
  - simpl. lia.
  - exact Hgone.
  - unfold has. apply bool_decide_eq_false. rewrite Hgone. apply is_Some_None.
Qed.

End CacheClaims.

(** ** Worked examples on concrete caches *)

Section CacheExamples.
Import Scenario.

(** The end-to-end example of the specification, for an entry stored
    with the default TTL: returned at age 299999, gone at age 300000,
    where it is the timer of [set], not the test in [get], that removes
    it. *)
Lemma default_ttl_entry_at_boundary :
  (get "k" (advance 299999 (set "k" (Some "v") None globalQueryCache))).1 = Some "v" ∧
  has "k" (advance 300000 (set "k" (Some "v") None globalQueryCache)) = false ∧
  (get "k" (advance 300000 (set "k" (Some "v") None globalQueryCache))).1 = None.
Proof. split_and!; reflexivity. Qed.

(** C1. The code at the boundary.  In a cache with default TTL 300000 a
    value is stored with a TTL of 600000.  At age 299999 [get] returns it;
    one millisecond later, at age exactly 300000, the entry is still
    stored and [get] still returns it, the test being [age > defaultTTL];
    one more millisecond and it is evicted. *)
Theorem get_at_age_equal_to_default_ttl :
  (get "k" (advance 299999 tenMinutePage)).1 = Some "v" ∧
  cache (advance 1 (get "k" (advance 299999 tenMinutePage)).2) !! "k"
    = Some (mkEntry (Some "v") 0 None) ∧
  now (advance 1 (get "k" (advance 299999 tenMinutePage)).2) = 300000 ∧
  defaultTTL tenMinutePage = 300000 ∧
  (get "k" (advance 1 (get "k" (advance 299999 tenMinutePage)).2)).1 = Some "v" ∧
  (get "k" (advance 300001 tenMinutePage)).1 = None.
Proof. split_and!; reflexivity. Qed.

(** C2. The same boundary seen from [set]: a page stored for an hour in
    the global cache (default TTL 300000) is still returned after a clock
    advance of exactly 300000, and no longer after 300001. *)
Theorem get_after_advance_equal_to_default_ttl :
  defaultTTL hourPage = 300000 ∧
  (get "stream:page1" (advance 300000 hourPage)).1 = Some "items" ∧
  (get "stream:page1" (advance 300001 hourPage)).1 = None.
Proof. split_and!; reflexivity. Qed.

(** C3, as stated, fails in [createQueryCache(-1)]: the entry just written
    has age 0, which exceeds the default TTL, and [get] evicts it. *)
Lemma set_then_get_negative_default_ttl :
  (get "k" (set "k" (Some "v") (Some 1000) negativeCache)).1 = None ∧
  (get "k" (set "k" (Some "v") (Some 1000) negativeCache)).1 ≠ Some "v" ∧
  has "k" (get "k" (set "k" (Some "v") (Some 1000) negativeCache)).2 = false.
Proof. split_and!; [reflexivity|discriminate|reflexivity]. Qed.

Lemma set_then_get_returns_value_witness :
  0 ≤ defaultTTL globalQueryCache ∧
  get "k" (set "k" (Some "v") (Some 1000) globalQueryCache)
    = (Some "v", set "k" (Some "v") (Some 1000) globalQueryCache).
Proof.
  split.
  - simpl. lia.
  - apply (set_then_get_returns_value globalQueryCache "k" (Some "v") (Some 1000)).
    simpl. lia.
Defined.

(** C4, as stated, fails when an earlier [set] left its timer behind: the
    sentinel written 200 seconds after a default-TTL [set] is deleted by
    that timer 100 seconds later, well within the TTL window. *)
Lemma sentinel_removed_by_earlier_timer :
  now (advance 100000 failedRefetch) - now failedRefetch = 100000 ∧
  defaultTTL failedRefetch = 300000 ∧
  cache failedRefetch !! "profile:42" = Some (mkEntry None 200000 (Some "offline")) ∧
  (get "profile:42" (advance 100000 failedRefetch)).1 = None ∧
  cache (get "profile:42" (advance 100000 failedRefetch)).2 !! "profile:42" = None ∧
  has "profile:42" (get "profile:42" (advance 100000 failedRefetch)).2 = false.
Proof. split_and!; reflexivity. Qed.

Lemma not_pending_globalQueryCache k : ¬ pending k globalQueryCache.
Proof. intros H. apply Exists_nil in H. exact H. Defined.

Lemma setError_then_get_witness :
  (get "k" (advance 300000 (setError "k" "offline" globalQueryCache))).1 = None ∧
  300000 ≤ defaultTTL globalQueryCache ∧
  ¬ timer_runs "k" (now globalQueryCache + 300000) globalQueryCache ∧
  cache (advance 300000 (setError "k" "offline" globalQueryCache)) !! "k"
    = Some (mkEntry None 0 (Some "offline")) ∧
  has "k" (advance 300000 (setError "k" "offline" globalQueryCache)) = true.
Proof.
  assert (Hd : 300000 ≤ defaultTTL globalQueryCache) by (simpl; lia).
  assert (Hno : ¬ timer_runs "k" (now globalQueryCache + 300000) globalQueryCache)
    by (intros H; apply Exists_nil in H; exact H).
  destruct (setError_then_get globalQueryCache "k" "offline" 300000) as [Hdata Hkeep].
  destruct (Hkeep Hd Hno) as (_ & Hlk & Hhas).
  split_and!; assumption.
Defined.

Lemma has_ignores_staleness_witness :
  cache (advance 300001 tenMinutePage) !! "k" = Some (mkEntry (Some "v") 0 None) ∧
  defaultTTL (advance 300001 tenMinutePage) < now (advance 300001 tenMinutePage) - 0 ∧
  has "k" (advance 300001 tenMinutePage) = true ∧
  (get "k" (advance 300001 tenMinutePage)).1 = None.
Proof.
  assert (Hlk : cache (advance 300001 tenMinutePage) !! "k"
                = Some (mkEntry (Some "v") 0 None)) by reflexivity.
  assert (Hage : defaultTTL (advance 300001 tenMinutePage)
                 < now (advance 300001 tenMinutePage) - 0) by (simpl; lia).
  destruct (has_ignores_staleness (advance 300001 tenMinutePage) "k") as [_ Hstale].
  destruct (Hstale _ Hlk Hage) as [Hhas Hget].
  split_and!; assumption.
Defined.

Lemma delete_removes_entry_witness :
  cache globalQueryCache !! "k" = None ∧
  delete "k" globalQueryCache = globalQueryCache ∧
  "other" ≠ "k" ∧
  cache (delete "k" hourPage) !! "stream:page1" = cache hourPage !! "stream:page1".
Proof.
  destruct (delete_removes_entry globalQueryCache "k") as (_ & _ & _ & _ & Hnoop).
  destruct (delete_removes_entry hourPage "k") as (_ & _ & _ & Hother & _).
  split_and!.
  - reflexivity.
  - apply Hnoop. reflexivity.
  - discriminate.
  - apply Hother. discriminate.
Defined.

(** C10, as stated, fails for the same reason: the only thing that happens
    after [setError] is a wait of one second, and the timer of the earlier
    [set] deletes the error entry. *)
Lemma error_entry_removed_by_earlier_timer :
  quiet "k" [OpAdvance 1000] shortThenError = true ∧
  has "k" shortThenError = true ∧
  has "k" (run [OpAdvance 1000] shortThenError) = false.
Proof. split_and!; reflexivity. Qed.

Lemma setError_entry_stays_witness :
  ¬ pending "k" globalQueryCache ∧
  quiet "k" [OpAdvance 1000; OpGet "k"; OpSet "other" (Some "x") None;
             OpAdvance 299000; OpDelete "other"; OpAdvance 900000; OpHas "k"]
        (setError "k" "boom" globalQueryCache) = true ∧
  has "k" (run [OpAdvance 1000; OpGet "k"; OpSet "other" (Some "x") None;
                OpAdvance 299000; OpDelete "other"; OpAdvance 900000; OpHas "k"]
               (setError "k" "boom" globalQueryCache)) = true.
Proof.
  assert (Hq : quiet "k" [OpAdvance 1000; OpGet "k"; OpSet "other" (Some "x") None;
                          OpAdvance 299000; OpDelete "other"; OpAdvance 900000; OpHas "k"]
                 (setError "k" "boom" globalQueryCache) = true) by reflexivity.
  destruct (setError_entry_stays globalQueryCache "k" "boom" _
              (not_pending_globalQueryCache "k") Hq) as (_ & _ & Hhas).
  split_and!; [apply not_pending_globalQueryCache|exact Hq|exact Hhas].
Defined.

Lemma overwritten_entry_removed_by_first_timer_witness :
  ¬ pending "k" globalQueryCache ∧
  0 ≤ 400 < 1000 ∧
  1000 < 5000 ≤ Host.MAX_TIMEOUT ∧
  cache (advance 599 (set "k" (Some "v2") (Some 5000)
           (advance 400 (set "k" (Some "v1") (Some 1000) globalQueryCache)))) !! "k"
    = Some (mkEntry (Some "v2") 400 None) ∧
  has "k" (advance (1000 - 400) (set "k" (Some "v2") (Some 5000)
             (advance 400 (set "k" (Some "v1") (Some 1000) globalQueryCache)))) = false.
Proof.
  assert (Hd : 0 ≤ 400 < 1000) by lia.
  assert (Ht : 1000 < 5000 ≤ Host.MAX_TIMEOUT) by (unfold Host.MAX_TIMEOUT; lia).
  destruct (overwritten_entry_removed_by_first_timer globalQueryCache "k"
              (Some "v1") (Some "v2") 1000 5000 400
              (not_pending_globalQueryCache "k") Hd Ht)
    as (_ & Hbefore & _ & _ & Hhas).
  split; [apply not_pending_globalQueryCache|].
  split; [exact Hd|]. split; [exact Ht|]. split; [|exact Hhas].
  apply (Hbefore 599). lia.
Defined.

End CacheExamples.

(** * Properties of the paginated fetch *)

Import Media.

Section MediaClaims.

Context {Row Err : Type}.
Context (row_id row_type row_creator_name : Row → string).
Implicit Types (rows : list Row) (activeTab : string) (p : Z) (n : nat).

Lemma range_page (from : Z) n rows :
  range from (from + Z.of_nat n - 1) rows = take n (drop (Z.to_nat from) rows).
Proof.
  unfold range. replace (from + Z.of_nat n - 1 - from + 1) with (Z.of_nat n) by lia.
  rewrite Nat2Z.id. reflexivity.
Qed.

(** C7. For every page number [p >= 1] and page size [n], the content
    query returns the rows of the requested type that start at offset
    [(p - 1) * n], at most [n] of them; with the page size 12 of the Media
    page, page 1 starts at offset 0 and page 2 at offset 12. *)
Theorem contentQuery_page rows activeTab n p :
  1 ≤ p →
  startIdx (Z.of_nat n) p = (p - 1) * Z.of_nat n ∧
  media (contentQuery row_type rows activeTab (Z.of_nat n) p)
    = take n (drop (Z.to_nat ((p - 1) * Z.of_nat n))
                   (filter (λ r, row_type r = activeTab) rows)) ∧
  (length (media (contentQuery row_type rows activeTab (Z.of_nat n) p)) ≤ n)%nat ∧
  startIdx ITEMS_PER_PAGE 1 = 0 ∧
  startIdx ITEMS_PER_PAGE 2 = 12.
Proof.
  intros Hp.
  assert (Hmedia : media (contentQuery row_type rows activeTab (Z.of_nat n) p)
            = take n (drop (Z.to_nat ((p - 1) * Z.of_nat n))
                           (filter (λ r, row_type r = activeTab) rows))).
  { unfold contentQuery; simpl. rewrite range_page. reflexivity. }
  split_and!; try reflexivity.
  - exact Hmedia.
  - rewrite Hmedia, length_take. lia.
Qed.

(** ** The joined interaction queries *)

Lemma Promise_all_fulfilled {A B : Type} (p : Promise Err A) (q : Promise Err B) ab :
  outcome (Promise_all p q) = Fulfilled ab ↔
  outcome p = Fulfilled ab.1 ∧ outcome q = Fulfilled ab.2.
Proof.
  unfold Promise_all. destruct ab as [a b]; simpl.
  destruct (outcome p) as [a'|e1], (outcome q) as [b'|e2]; simpl;
    try case_decide; simpl; split; try (intros [??]); try intros ?; try congruence.
  split; congruence.
Qed.

Lemma Promise_all_rejected {A B : Type} (p : Promise Err A) (q : Promise Err B) :
  (∃ e, outcome p = Rejected e) ∨ (∃ e, outcome q = Rejected e) →
  ∃ e, outcome (Promise_all p q) = Rejected e ∧
       (outcome p = Rejected e ∨ outcome q = Rejected e).
Proof.
  unfold Promise_all.
  destruct (outcome p) as [a|e1], (outcome q) as [b|e2]; simpl;
    intros [[e He]|[e He]]; try discriminate; try case_decide; simpl; eauto.
Qed.

Lemma Promise_all_joins {A B : Type} (p : Promise Err A) (q : Promise Err B) ab :
  outcome (Promise_all p q) = Fulfilled ab →
  (settledAt p ≤ settledAt (Promise_all p q))%nat ∧
  (settledAt q ≤ settledAt (Promise_all p q))%nat.
Proof.
  unfold Promise_all.
  destruct (outcome p) as [a|e1], (outcome q) as [b|e2]; simpl;
    try case_decide; simpl; try discriminate. lia.
Qed.

Lemma userInteractions_fulfilled (likesQuery followsQuery : Promise Err (Supabase.Response Err))
    likes follows :
  outcome likesQuery = Fulfilled likes → outcome followsQuery = Fulfilled follows →
  outcome (userInteractions likesQuery followsQuery)
  = Fulfilled (Supabase.data likes, Supabase.data follows).
Proof.
  intros Hl Hf. unfold userInteractions, await; simpl.
  rewrite (proj2 (Promise_all_fulfilled likesQuery followsQuery (likes, follows)));
    [reflexivity|split; assumption].
Qed.


End MediaClaims.

Section MediaExamples.
Import Scenario.

Lemma contentQuery_page_witness :
  1 ≤ 2 ∧
  media (contentQuery type table "stream" (Z.of_nat 2) 2)
    = [mkRow "m4" "stream" "DJ Marcus"] ∧
  (length (media (contentQuery type table "stream" (Z.of_nat 2) 2)) ≤ 2)%nat.
Proof.
  assert (Hp : 1 ≤ 2) by lia.
  destruct (contentQuery_page type table "stream" 2 2 Hp) as (_ & Hmedia & Hlen & _).
  split_and!; [exact Hp| |exact Hlen].
  rewrite Hmedia. reflexivity.
Defined.



End MediaExamples.

(** * Further properties of the query cache *)

Section CacheExtras.

Context {T Err : Type}.
Implicit Types (w : World T Err) (op : Op T Err) (ops : list (Op T Err)).
Implicit Types (k : string) (v : option T) (ttl : option Z) (d : Z).

(** X1. Reading a key twice in a row gives what reading it once gives:
    the second [get] returns the same answer and leaves the same cache,
    whether the first one returned the data or evicted a stale entry. *)
Theorem get_twice w k : get k (get k w).2 = get k w.
Proof.
  unfold get at 2 3. destruct (cache w !! k) as [entry|] eqn:Hlk; simpl.
  - destruct (now w - timestamp entry >? defaultTTL w) eqn:Hage; simpl.
    + apply get_absent. simpl. apply lookup_delete_eq.
    + unfold get. rewrite Hlk. simpl. rewrite Hage. reflexivity.
  - apply get_absent, Hlk.
Qed.

(** X2. A call that names a key never touches the entry of another key:
    [set], [get], [has], [delete] and [setError] on [k'] leave the entry of
    every [k <> k'] as it was. *)
Theorem call_leaves_other_keys op w k k' :
  Calls.key_of op = Some k' → k' ≠ k →
  cache (step op w) !! k = cache w !! k.
Proof.
  intros Hkey Hne.
  destruct op as [k0 v ttl|k0|k0| |k0|k0 e| |d]; simpl in Hkey; try discriminate;
    injection Hkey as ->; cbn [step].
  - unfold set; simpl. apply lookup_insert_ne, Hne.
  - unfold get. destruct (cache w !! k') as [entry|]; [|reflexivity].
    simpl. destruct (_ >? _); [|reflexivity].
    simpl. apply lookup_delete_ne, Hne.
  - reflexivity.
  - unfold delete; simpl. apply lookup_delete_ne, Hne.
  - unfold setError; simpl. apply lookup_insert_ne, Hne.
Qed.

(** X3. [getSize] counts keys: [set] and [setError] add one exactly when
    the key was not stored, [delete] removes one exactly when it was, and
    [clear] leaves none. *)
Theorem getSize_accounting w k v ttl (e : Err) :
  getSize (set k v ttl w) = (if has k w then getSize w else S (getSize w)) ∧
  getSize (setError k e w) = (if has k w then getSize w else S (getSize w)) ∧
  getSize (delete k w) = (if has k w then pred (getSize w) else getSize w) ∧
  getSize (clear w) = 0%nat.
Proof.
  unfold getSize, has, set, setError, delete, clear; simpl.
  rewrite !map_size_insert, map_size_delete, map_size_empty.
  destruct (cache w !! k) as [entry|] eqn:Hlk.
  - rewrite bool_decide_eq_true_2 by eauto. auto.
  - rewrite bool_decide_eq_false_2 by apply is_Some_None. auto.
Qed.

(** X4. The passing of time only removes: waiting never adds an entry,
    never changes one that stays, never grows the cache, and the timers
    left are among those that were pending. *)
Theorem waiting_only_removes w d :
  cache (advance d w) ⊆ cache w ∧
  (getSize (advance d w) ≤ getSize w)%nat ∧
  timers (advance d w) `sublist_of` timers w ∧
  defaultTTL (advance d w) = defaultTTL w.
Proof.
  assert (Hsub : cache (advance d w) ⊆ cache w).
  { apply map_subseteq_spec. intros k entry Hlk.
    unfold advance in Hlk; simpl in Hlk.
    eapply run_timers_lookup_Some, Hlk. }
  split_and!.
  - exact Hsub.
  - unfold getSize. apply map_subseteq_size, Hsub.
  - unfold advance; simpl. apply sublist_filter.
  - reflexivity.
Qed.

Lemma step_registers op w :
  Calls.is_wait op = false →
  timers (step op w) = timers w ++ Calls.registered op w.
Proof.
  intros Hnw. destruct op as [k v ttl|k|k| |k|k e| |d]; try discriminate;
    cbn [step Calls.registered]; rewrite ?app_nil_r; try reflexivity.
  unfold get. destruct (cache w !! k) as [entry|]; [|reflexivity].
  simpl. destruct (_ >? _); reflexivity.
Qed.

(** X5. No method cancels a timer.  Through any sequence of calls with no
    wait in between, [clear] and [delete] included, the timers pending at
    the start all stay pending, in place, and each [set] adds one more. *)
Theorem calls_never_cancel_timers ops w :
  Forall (λ op, Calls.is_wait op = false) ops →
  timers w `prefix_of` timers (run ops w) ∧
  length (timers (run ops w))
  = (length (timers w) + length (List.filter Calls.is_set ops))%nat.
Proof.
  intros Hall. revert w.
  induction Hall as [|op ops Hop _ IH]; intros w.
  - simpl. rewrite Nat.add_0_r. split; reflexivity.
  - change (run (op :: ops) w) with (run ops (step op w)).
    destruct (IH (step op w)) as [Hpre Hlen].
    rewrite (step_registers op w Hop) in Hpre, Hlen. split.
    + etransitivity; [apply prefix_app_r; reflexivity|exact Hpre].
    + rewrite Hlen, length_app. simpl.
      destruct op; simpl; lia.
Qed.

(** X6. An entry written by [set] is gone once the delay of its timer has
    passed: after a wait of at least that delay the key is absent, [has]
    is false and [get] returns nothing.  The delay is the TTL as
    [setTimeout] takes it, so a zero or negative TTL removes the entry at
    the first turn of the event loop. *)
Theorem set_entry_removed_once_due w k v ttl d :
  Host.timerDelay (default (defaultTTL w) ttl) ≤ d →
  cache (advance d (set k v ttl w)) !! k = None ∧
  has k (advance d (set k v ttl w)) = false ∧
  get k (advance d (set k v ttl w)) = (None, advance d (set k v ttl w)).
Proof.
  intros Hd.
  assert (Hgone : cache (advance d (set k v ttl w)) !! k = None).
  { apply advance_lookup_timer_runs.
    unfold timer_runs, set; simpl. apply Exists_app. right. apply Exists_cons_hd.
    split; [|reflexivity]. unfold fires, Host.due; simpl. lia. }
  split_and!.
  - exact Hgone.
  - unfold has. apply bool_decide_eq_false. rewrite Hgone. apply is_Some_None.
  - apply get_absent, Hgone.
Qed.

(** X7. The window in which a stored value is served.  With no earlier
    timer pending for the key, [get] returns the value stored by [set]
    after a wait [d] exactly when [d] is less than the delay of the timer
    and at most the default TTL. *)
Theorem get_hit_window w k (x : T) ttl d :
  ¬ pending k w →
  (get k (advance d (set k (Some x) ttl w))).1 = Some x ↔
  d < Host.timerDelay (default (defaultTTL w) ttl) ∧ d ≤ defaultTTL w.
Proof.
  intros Hnp. split.
  - intros Hget. split.
    + destruct (Z_lt_le_dec d (Host.timerDelay (default (defaultTTL w) ttl)))
        as [|Hle]; [assumption|].
      destruct (set_entry_removed_once_due w k (Some x) ttl d Hle) as (_ & _ & Hnone).
      rewrite Hnone in Hget. discriminate.
    + destruct (Z_le_gt_dec d (defaultTTL w)) as [|Hgt]; [assumption|].
      rewrite get_after_default_ttl in Hget by lia. discriminate.
  - intros [Hdelay Hage].
    rewrite (get_fresh _ k (mkEntry (Some x) (now w) None)); [reflexivity| |simpl; lia].
    rewrite advance_lookup_no_timer_runs.
    + unfold set; simpl. apply lookup_insert_eq.
    + unfold timer_runs, set; simpl. intros Hex.
      apply Exists_app in Hex as [Hex|Hex].
      * apply Hnp. apply Exists_exists in Hex as (tm & Hin & _ & Hk).
        apply Exists_exists. eauto.
      * apply Exists_cons in Hex as [[Hf _]|Hex]; [|apply Exists_nil in Hex; exact Hex].
        unfold fires, Host.due in Hf; simpl in Hf. lia.
Qed.

Lemma step_scheduled op w : Calls.scheduled w → Calls.scheduled (step op w).
Proof.
  intros Hs k entry Hlk Herr.
  destruct op as [k0 v ttl|k0|k0| |k0|k0 e| |d]; cbn [step] in *.
  - unfold pending, set in *; simpl in *. apply Exists_app.
    destruct (decide (k0 = k)) as [->|Hne].
    + right. apply Exists_cons_hd. reflexivity.
    + left. rewrite lookup_insert_ne in Hlk by exact Hne. exact (Hs k entry Hlk Herr).
  - unfold get in *. destruct (cache w !! k0) as [entry0|] eqn:Hlk0;
      [|exact (Hs k entry Hlk Herr)].
    simpl in *. destruct (_ >? _); [|exact (Hs k entry Hlk Herr)].
    simpl in Hlk. unfold pending; simpl.
    destruct (decide (k0 = k)) as [->|Hne].
    + rewrite lookup_delete_eq in Hlk. discriminate.
    + rewrite lookup_delete_ne in Hlk by exact Hne. exact (Hs k entry Hlk Herr).
  - exact (Hs k entry Hlk Herr).
  - unfold clear in Hlk; simpl in Hlk. rewrite lookup_empty in Hlk. discriminate.
  - unfold delete in Hlk; simpl in Hlk. unfold pending; simpl.
    destruct (decide (k0 = k)) as [->|Hne].
    + rewrite lookup_delete_eq in Hlk. discriminate.
    + rewrite lookup_delete_ne in Hlk by exact Hne. exact (Hs k entry Hlk Herr).
  - unfold setError in Hlk; simpl in Hlk. unfold pending; simpl.
    destruct (decide (k0 = k)) as [->|Hne].
    + rewrite lookup_insert_eq in Hlk. injection Hlk as <-. discriminate.
    + rewrite lookup_insert_ne in Hlk by exact Hne. exact (Hs k entry Hlk Herr).
  - exact (Hs k entry Hlk Herr).
  - assert (Hbefore : cache w !! k = Some entry).
    { unfold advance in Hlk; simpl in Hlk. eapply run_timers_lookup_Some, Hlk. }
    destruct (decide (timer_runs k (now w + d) w)) as [Hruns|Hno].
    { rewrite (advance_lookup_timer_runs d w k Hruns) in Hlk. discriminate. }
    specialize (Hs k entry Hbefore Herr).
    apply Exists_exists in Hs as (tm & Hin & Hk).
    unfold pending, advance; simpl. apply Exists_exists. exists tm. split; [|exact Hk].
    apply list_elem_of_filter. split; [|exact Hin].
    intros Hf. apply Hno. apply Exists_exists. eauto.
Qed.

(** X8. In every cache reached from a new one by any sequence of calls
    and waits, each entry that carries data (written by [set], its [error]
    being [null]) has a timer pending that will delete it. *)
Theorem data_entries_always_scheduled (ttl0 : option Z) (t0 : Z) ops :
  Calls.scheduled (run ops (create ttl0 t0)).
Proof.
  assert (Hrun : ∀ w, Calls.scheduled w → Calls.scheduled (run ops w)).
  { induction ops as [|op ops IH]; intros w Hs; [exact Hs|].
    change (run (op :: ops) w) with (run ops (step op w)).
    apply IH, step_scheduled, Hs. }
  apply Hrun. intros k entry Hlk. unfold create in Hlk; simpl in Hlk.
  rewrite lookup_empty in Hlk. discriminate.
Qed.

End CacheExtras.

(** * The page cache of the Media page and the query cache *)

Section PageCacheExtras.

Context {T Err MediaItem User : Type}.

(** X11. The page cache of [Media.tsx] and [QueryCache.get] disagree on
    one instant only.  For an anonymous visitor and an entry of the same
    age under a default TTL of [CACHE_DURATION], whenever the page cache
    serves its entry the query cache returns its value, and the query
    cache returns a value the page cache no longer serves exactly when the
    age equals [CACHE_DURATION]. *)
Theorem page_cache_and_query_cache_boundary (w : World T Err) (k : string)
    (entry : CacheEntry T Err) (v : T) (cached : PageCache.CacheEntry MediaItem) :
  cache w !! k = Some entry → data entry = Some v →
  defaultTTL w = PageCache.CACHE_DURATION →
  PageCache.timestamp cached = timestamp entry →
  (PageCache.servesCached (Some cached) (now w) (None : option User) = true →
   (get k w).1 = Some v) ∧
  ((get k w).1 = Some v ∧
   PageCache.servesCached (Some cached) (now w) (None : option User) = false ↔
   now w - timestamp entry = PageCache.CACHE_DURATION).
Proof.
  intros Hlk Hv Httl Hts.
  pose proof (get_stored_value w k entry v Hlk Hv) as Hget.
  unfold PageCache.servesCached. rewrite Hts, bool_decide_eq_true_2 by reflexivity.
  rewrite andb_true_r. rewrite Httl in Hget.
  destruct (Z.ltb_spec (now w - timestamp entry) PageCache.CACHE_DURATION) as [Hlt|Hge].
  - split; [intros _; apply Hget; lia|].
    split; [intros [_ ?]; discriminate|lia].
  - split; [discriminate|]. split.
    + intros [Hsome _]. apply Hget in Hsome. lia.
    + intros Heq. split; [apply Hget; lia|reflexivity].
Qed.

End PageCacheExtras.

(** * Properties of the image helpers *)

Import Images.

Section ImageFacts.

Implicit Types (s t needle url : string) (width : option Z).

Lemma append_cons c s t : String c s +:+ t = String c (s +:+ t).
Proof. reflexivity. Qed.

Lemma append_nil_r s : s +:+ "" = s.
Proof.
  induction s as [|c s IH]; [reflexivity|]. rewrite append_cons, IH. reflexivity.
Qed.

Lemma append_assoc s t u : (s +:+ t) +:+ u = s +:+ t +:+ u.
Proof.
  induction s as [|c s IH]; [reflexivity|]. rewrite !append_cons, IH. reflexivity.
Qed.

Lemma append_eq_l s t : s +:+ t = s → t = "".
Proof.
  intros H. apply (String.app_inj s). rewrite append_nil_r. exact H.
Qed.

Lemma prefix_spec needle s :
  String.prefix needle s = true ↔ ∃ t, s = needle +:+ t.
Proof.
  revert needle. induction s as [|c' s IH]; intros needle.
  - destruct needle as [|c needle]; simpl.
    + split; [eauto|reflexivity].
    + split; [discriminate|]. intros [t Ht]. rewrite append_cons in Ht. discriminate.
  - destruct needle as [|c needle]; simpl.
    + split; [eauto|reflexivity].
    + destruct (Ascii.ascii_dec c c') as [->|Hne].
      * rewrite IH. split; intros [t Ht]; exists t.
        -- rewrite append_cons. congruence.
        -- rewrite append_cons in Ht. congruence.
      * split; [discriminate|]. intros [t Ht]. rewrite append_cons in Ht. congruence.
Qed.

(** [includes] finds exactly the strings that contain the needle. *)
Lemma includes_spec needle s :
  includes needle s = true ↔ ∃ a b, s = a +:+ needle +:+ b.
Proof.
  induction s as [|c s IH]; cbn [includes].
  - rewrite orb_false_r, prefix_spec. split.
    + intros [t Ht]. exists "", t. exact Ht.
    + intros (a & b & Hab). destruct a as [|c a];
        [eauto|rewrite append_cons in Hab; discriminate].
  - rewrite orb_true_iff, prefix_spec, IH. split.
    + intros [[t Ht]|(a & b & Hab)].
      * exists "", t. exact Ht.
      * exists (String c a), b. rewrite append_cons. congruence.
    + intros (a & b & Hab). destruct a as [|c' a].
      * left. eauto.
      * right. exists a, b. rewrite append_cons in Hab. congruence.
Qed.

Lemma includes_app_r needle s t :
  includes needle s = true → includes needle (s +:+ t) = true.
Proof.
  rewrite !includes_spec. intros (a & b & ->). exists a, (b +:+ t).
  rewrite !append_assoc. reflexivity.
Qed.

Lemma includes_pexels_nonempty url : includes "pexels.com" url = true → url ≠ "".
Proof. intros H ->. discriminate. Qed.

Lemma getOptimizedImageUrl_rewritten url w :
  includes "pexels.com" url = true → w ≠ 0 →
  getOptimizedImageUrl url (Some w)
  = url +:+ (if includes "?" url then "&" else "?")
        +:+ "w=" +:+ numberToString w +:+ "&q=75".
Proof.
  intros Hp Hw. unfold getOptimizedImageUrl.
  rewrite bool_decide_eq_false_2 by (apply includes_pexels_nonempty, Hp).
  rewrite Hp, bool_decide_eq_true_2 by exact Hw. reflexivity.
Qed.

Lemma getOptimizedImageUrl_other_host url width :
  includes "pexels.com" url = false → getOptimizedImageUrl url width = url.
Proof.
  intros Hp. unfold getOptimizedImageUrl. case_bool_decide as Hempty.
  - symmetry. exact Hempty.
  - rewrite Hp. reflexivity.
Qed.

(** X12. [getOptimizedImageUrl] only ever appends to the URL it is given,
    and it returns the URL unchanged exactly when the URL does not contain
    [pexels.com] or the width is missing or zero. *)
Theorem getOptimizedImageUrl_appends_only url width :
  (∃ suffix, getOptimizedImageUrl url width = url +:+ suffix) ∧
  (getOptimizedImageUrl url width = url ↔
   includes "pexels.com" url = false ∨ width = None ∨ width = Some 0).
Proof.
  destruct (includes "pexels.com" url) eqn:Hp.
  - destruct width as [w|].
    + destruct (decide (w = 0)) as [->|Hw].
      * assert (Hsame : getOptimizedImageUrl url (Some 0) = url).
        { unfold getOptimizedImageUrl.
          rewrite bool_decide_eq_false_2 by (apply includes_pexels_nonempty, Hp).
          rewrite Hp. reflexivity. }
        rewrite Hsame. split; [exists ""; symmetry; apply append_nil_r|].
        split; auto.
      * rewrite getOptimizedImageUrl_rewritten by assumption. split; [eauto|].
        split.
        -- intros Heq. apply append_eq_l in Heq.
           destruct (includes "?" url); discriminate.
        -- intros [?|[?|Hz]]; [discriminate|discriminate|congruence].
    + assert (Hsame : getOptimizedImageUrl url None = url).
      { unfold getOptimizedImageUrl.
        rewrite bool_decide_eq_false_2 by (apply includes_pexels_nonempty, Hp).
        rewrite Hp. reflexivity. }
      rewrite Hsame. split; [exists ""; symmetry; apply append_nil_r|].
      split; auto.
  - rewrite getOptimizedImageUrl_other_host by exact Hp.
    split; [exists ""; symmetry; apply append_nil_r|]. split; auto.
Qed.

(** X13. Optimizing a Pexels URL twice does not replace the first width:
    the URL produced the first time contains [pexels.com] and a [?], so
    the second call appends a second [&w=...&q=75] after the first. *)
Theorem getOptimizedImageUrl_twice url w1 w2 :
  includes "pexels.com" url = true → w1 ≠ 0 → w2 ≠ 0 →
  includes "?" (getOptimizedImageUrl url (Some w1)) = true ∧
  getOptimizedImageUrl (getOptimizedImageUrl url (Some w1)) (Some w2)
  = getOptimizedImageUrl url (Some w1) +:+ "&w=" +:+ numberToString w2 +:+ "&q=75".
Proof.
  intros Hp Hw1 Hw2.
  assert (Hq : includes "?" (getOptimizedImageUrl url (Some w1)) = true).
  { rewrite getOptimizedImageUrl_rewritten by assumption.
    destruct (includes "?" url) eqn:Hurl.
    - apply includes_app_r, Hurl.
    - apply includes_spec. exists url, ("w=" +:+ numberToString w1 +:+ "&q=75").
      reflexivity. }
  split; [exact Hq|].
  assert (Hp' : includes "pexels.com" (getOptimizedImageUrl url (Some w1)) = true).
  { rewrite getOptimizedImageUrl_rewritten by assumption. apply includes_app_r, Hp. }
  rewrite (getOptimizedImageUrl_rewritten _ w2 Hp' Hw2), Hq. reflexivity.
Qed.

(** X14. For a URL that does not contain [pexels.com], the empty URL
    included, the three candidates of [createImageSet] are that same URL:
    the set is the URL followed by [400w], [600w] and [800w] in turn. *)
Theorem createImageSet_other_host url :
  includes "pexels.com" url = false →
  createImageSet url = url +:+ " 400w, " +:+ url +:+ " 600w, " +:+ url +:+ " 800w".
Proof.
  intros Hp. unfold createImageSet.
  rewrite !getOptimizedImageUrl_other_host by exact Hp. reflexivity.
Qed.

(** X15. The proposed [getResponsiveImageUrl] returns what
    [getOptimizedImageUrl] returns for the same width exactly for Pexels
    URLs without a query string; elsewhere it appends [?w=...] where the
    other leaves the URL alone or appends [&w=...]. *)
Theorem getResponsiveImageUrl_agrees_iff url (size : Size) :
  getResponsiveImageUrl url size = getOptimizedImageUrl url (Some (sizeMap size)) ↔
  includes "pexels.com" url = true ∧ includes "?" url = false.
Proof.
  assert (Hw : sizeMap size ≠ 0) by (destruct size; discriminate).
  unfold getResponsiveImageUrl.
  destruct (includes "pexels.com" url) eqn:Hp.
  - rewrite getOptimizedImageUrl_rewritten by assumption.
    destruct (includes "?" url); split.
    + intros Heq. apply (String.app_inj url) in Heq. discriminate.
    + intros [_ ?]. discriminate.
    + auto.
    + intros _. reflexivity.
  - rewrite getOptimizedImageUrl_other_host by exact Hp. split.
    + intros Heq. apply append_eq_l in Heq. discriminate.
    + intros [? _]. discriminate.
Qed.

End ImageFacts.

(** * Properties of [retryFetch] *)

Import Retry.

Section RetryFacts.

Context {Err A : Type}.
Implicit Types (fn : nat → Settled Err A) (i j k r : nat) (w : Z).
Implicit Types (lastError : option Err) (maxRetries : Z).

Lemma delay_succ i : delay (S i) = 2 * delay i.
Proof. unfold delay. rewrite Nat2Z.inj_succ, Z.pow_succ_r by lia. lia. Qed.

Lemma delay_pos i : 0 < delay i.
Proof. unfold delay. assert (0 < 2 ^ Z.of_nat i) by (apply Z.pow_pos_nonneg; lia). lia. Qed.

(** Up to the 22nd failure the backoff fits a timer delay. *)
Lemma timerDelay_delay i : (i < 22)%nat → Host.timerDelay (delay i) = delay i.
Proof.
  intros Hi. apply timerDelay_in_range. split; [pose proof (delay_pos i); lia|].
  unfold delay, Host.MAX_TIMEOUT.
  assert (2 ^ Z.of_nat i ≤ 2 ^ 21) by (apply Z.pow_le_mono_r; lia).
  change (2 ^ 21) with 2097152 in *. change (2 ^ 31) with 2147483648. lia.
Qed.

Lemma timerDelay_nonneg x : 0 ≤ Host.timerDelay x.
Proof. unfold Host.timerDelay. lia. Qed.

Lemma retryLoop_sound fn r i lastError w :
  (i ≤ calls (retryLoop fn r i lastError w) ≤ i + r)%nat ∧
  w ≤ waited (retryLoop fn r i lastError w) ∧
  (∀ a, completion (retryLoop fn r i lastError w) = Returned a →
        (i < calls (retryLoop fn r i lastError w))%nat ∧
        fn (pred (calls (retryLoop fn r i lastError w))) = Fulfilled a ∧
        ∀ j, (i ≤ j < pred (calls (retryLoop fn r i lastError w)))%nat →
             ∃ e, fn j = Rejected e) ∧
  (∀ thrown, completion (retryLoop fn r i lastError w) = Thrown thrown →
        calls (retryLoop fn r i lastError w) = (i + r)%nat ∧
        ∀ j, (i ≤ j < i + r)%nat → ∃ e, fn j = Rejected e).
Proof.
  revert i lastError w. induction r as [|r IH]; intros i lastError w; simpl.
  - split_and!; try lia.
    + intros a Ha. discriminate.
    + intros thrown _. split; [lia|]. intros j Hj. lia.
  - destruct (fn i) as [a|e] eqn:Hfn; simpl.
    + split_and!; try lia.
      * intros a' Ha. injection Ha as <-. split_and!; [lia|exact Hfn|].
        intros j Hj. lia.
      * intros thrown Ht. discriminate.
    + destruct (IH (S i) (Some e) (w + Host.timerDelay (delay i)))
        as (Hcalls & Hwait & Hret & Hthrow).
      pose proof (timerDelay_nonneg (delay i)).
      split_and!; try lia.
      * intros a Ha. destruct (Hret a Ha) as (Hlt & Hval & Hrej).
        split_and!; [lia|exact Hval|].
        intros j Hj. destruct (decide (j = i)) as [->|Hne]; [eauto|].
        apply Hrej. lia.
      * intros thrown Ht. destruct (Hthrow thrown Ht) as (Hn & Hrej).
        split; [lia|]. intros j Hj.
        destruct (decide (j = i)) as [->|Hne]; [eauto|]. apply Hrej. lia.
Qed.

(** X16. What [retryFetch] can come to, whatever the thunk does: [fn] is
    called at most [maxRetries] times; a returned value is that of the
    last call made, every call before it having failed; and an error is
    thrown only after all [maxRetries] calls have failed. *)
Theorem retryFetch_sound fn (maxRetries : option Z) :
  (calls (retryFetch fn maxRetries) ≤ Z.to_nat (default 3%Z maxRetries))%nat ∧
  0 ≤ waited (retryFetch fn maxRetries) ∧
  (∀ a, completion (retryFetch fn maxRetries) = Returned a →
        (0 < calls (retryFetch fn maxRetries))%nat ∧
        fn (pred (calls (retryFetch fn maxRetries))) = Fulfilled a ∧
        ∀ j, (j < pred (calls (retryFetch fn maxRetries)))%nat → ∃ e, fn j = Rejected e) ∧
  (∀ thrown, completion (retryFetch fn maxRetries) = Thrown thrown →
        calls (retryFetch fn maxRetries) = Z.to_nat (default 3%Z maxRetries) ∧
        ∀ j, (j < Z.to_nat (default 3%Z maxRetries))%nat → ∃ e, fn j = Rejected e).
Proof.
  unfold retryFetch.
  destruct (retryLoop_sound fn (Z.to_nat (default 3%Z maxRetries)) 0 None 0)
    as (Hcalls & Hwait & Hret & Hthrow).
  split_and!; [lia|exact Hwait| |].
  - intros a Ha. destruct (Hret a Ha) as (Hlt & Hval & Hrej).
    split_and!; [exact Hlt|exact Hval|]. intros j Hj. apply Hrej. lia.
  - intros thrown Ht. destruct (Hthrow thrown Ht) as (Hn & Hrej).
    split; [exact Hn|]. intros j Hj. apply Hrej. lia.
Qed.

Lemma retryLoop_until_success fn r i lastError w k a :
  (i ≤ k < i + r)%nat → (k ≤ 22)%nat →
  (∀ j, (i ≤ j < k)%nat → ∃ e, fn j = Rejected e) →
  fn k = Fulfilled a →
  retryLoop fn r i lastError w
  = mkRun (Returned a) (S k) (w + (2 ^ Z.of_nat k - 2 ^ Z.of_nat i) * 1000).
Proof.
  revert i lastError w. induction r as [|r IH]; intros i lastError w Hk Hbound Hrej Hok;
    [lia|].
  simpl. destruct (decide (i = k)) as [->|Hne].
  - rewrite Hok. f_equal. lia.
  - destruct (Hrej i) as [e He]; [lia|]. rewrite He.
    rewrite (IH (S i) (Some e)); [|lia|lia|intros j Hj; apply Hrej; lia|exact Hok].
    rewrite timerDelay_delay by lia. f_equal.
    pose proof (delay_succ i) as Hs. unfold delay in *. lia.
Qed.

Lemma retryLoop_all_rejected fn r i lastError w :
  (i + r ≤ 22)%nat →
  (∀ j, (i ≤ j < i + r)%nat → ∃ e, fn j = Rejected e) →
  ∃ thrown,
    retryLoop fn r i lastError w
    = mkRun (Thrown thrown) (i + r)
            (w + (2 ^ Z.of_nat (i + r) - 2 ^ Z.of_nat i) * 1000) ∧
    (r = 0%nat → thrown = lastError) ∧
    (∀ r' e, r = S r' → fn (i + r')%nat = Rejected e → thrown = Some e).
Proof.
  revert i lastError w. induction r as [|r IH]; intros i lastError w Hbound Hrej.
  - exists lastError. simpl. rewrite Nat.add_0_r. split_and!.
    + f_equal. lia.
    + reflexivity.
    + intros r' e Hr. discriminate.
  - destruct (Hrej i) as [e He]; [lia|]. simpl. rewrite He.
    destruct (IH (S i) (Some e) (w + Host.timerDelay (delay i)))
      as (thrown & Hrun & Hzero & Hlast); [lia|intros j Hj; apply Hrej; lia|].
    exists thrown. split_and!.
    + rewrite Hrun, timerDelay_delay by lia.
      replace (S i + r)%nat with (i + S r)%nat by lia. f_equal.
      pose proof (delay_succ i) as Hs. unfold delay in *. lia.
    + discriminate.
    + intros r' e' Hr He'. injection Hr as <-. destruct r as [|r''].
      * rewrite Nat.add_0_r in He'. rewrite (Hzero eq_refl). congruence.
      * apply (Hlast r'' e' eq_refl).
        replace (S i + r'')%nat with (i + S r'')%nat by lia. exact He'.
Qed.

(** X17. When the call number [k] (counting from 0, with [k] below
    [maxRetries] and at most 22) is the first to succeed, [retryFetch]
    returns its value after exactly [k + 1] calls and a total wait of
    [(2^k - 1) * 1000] milliseconds: 1 s, 2 s, 4 s, ... after each
    failure. *)
Theorem retryFetch_returns_first_success fn maxRetries k a :
  Z.of_nat k < maxRetries → (k ≤ 22)%nat →
  (∀ j, (j < k)%nat → ∃ e, fn j = Rejected e) →
  fn k = Fulfilled a →
  retryFetch fn (Some maxRetries)
  = mkRun (Returned a) (S k) ((2 ^ Z.of_nat k - 1) * 1000).
Proof.
  intros Hk Hbound Hrej Hok. unfold retryFetch; simpl.
  rewrite (retryLoop_until_success fn _ 0 None 0 k a);
    [f_equal|lia|exact Hbound|intros j Hj; apply Hrej; lia|exact Hok].
Qed.

(** X18. When all [maxRetries] calls fail (between 1 and 22 of them),
    [retryFetch] throws the error of the last call, and it does so only
    after waiting once more: the total wait is
    [(2^maxRetries - 1) * 1000] milliseconds, 7 seconds for the default of
    three tries. *)
Theorem retryFetch_throws_last_error fn maxRetries (e : Err) :
  1 ≤ maxRetries ≤ 22 →
  (∀ j, Z.of_nat j < maxRetries → ∃ e', fn j = Rejected e') →
  fn (Z.to_nat (maxRetries - 1)) = Rejected e →
  retryFetch fn (Some maxRetries)
  = mkRun (Thrown (Some e)) (Z.to_nat maxRetries) ((2 ^ maxRetries - 1) * 1000).
Proof.
  intros Hm Hrej Hlast. unfold retryFetch; simpl.
  destruct (retryLoop_all_rejected fn (Z.to_nat maxRetries) 0 None 0)
    as (thrown & Hrun & _ & Hthrown); [lia|intros j Hj; apply Hrej; lia|].
  rewrite Hrun. simpl.
  assert (Hn : Z.to_nat maxRetries = S (Z.to_nat (maxRetries - 1))) by lia.
  rewrite (Hthrown _ e Hn Hlast). f_equal.
  rewrite Z2Nat.id by lia. lia.
Qed.

(** X19. With [maxRetries] zero or negative the thunk is never called:
    [retryFetch] throws [undefined], the initial value of [lastError], at
    once. *)
Theorem retryFetch_without_attempt fn maxRetries :
  maxRetries ≤ 0 →
  retryFetch fn (Some maxRetries) = mkRun (Thrown None) 0 0.
Proof.
  intros Hm. unfold retryFetch; simpl. rewrite Z2Nat.nonpos by exact Hm. reflexivity.
Qed.

End RetryFacts.

(** * Worked examples for the further properties *)

Section ExtraExamples.
Import Scenario.

Lemma call_leaves_other_keys_witness :
  Calls.key_of (OpDelete "a" : Op string string) = Some "a" ∧
  "a" ≠ "stream:page1" ∧
  cache (step (OpDelete "a") hourPage) !! "stream:page1"
  = cache hourPage !! "stream:page1".
Proof.
  assert (Hne : "a" ≠ "stream:page1") by discriminate.
  split_and!; [reflexivity|exact Hne|].
  exact (call_leaves_other_keys (OpDelete "a") hourPage "stream:page1" "a" eq_refl Hne).
Defined.

Lemma calls_never_cancel_timers_witness :
  Forall (λ op : Op string string, Calls.is_wait op = false)
    [OpSet "a" (Some "x") None; OpClear; OpDelete "a"; OpSet "a" (Some "y") (Some 10)] ∧
  length (timers (run [OpSet "a" (Some "x") None; OpClear; OpDelete "a";
                       OpSet "a" (Some "y") (Some 10)] globalQueryCache)) = 2%nat.
Proof.
  assert (Hall : Forall (λ op : Op string string, Calls.is_wait op = false)
            [OpSet "a" (Some "x") None; OpClear; OpDelete "a";
             OpSet "a" (Some "y") (Some 10)])
    by (repeat constructor).
  split; [exact Hall|].
  destruct (calls_never_cancel_timers _ globalQueryCache Hall) as [_ Hlen].
  exact Hlen.
Defined.

Lemma set_entry_removed_once_due_witness :
  Host.timerDelay (default (defaultTTL globalQueryCache) (Some (-5))) ≤ 0 ∧
  has "k" (advance 0 (set "k" (Some "v") (Some (-5)) globalQueryCache)) = false.
Proof.
  assert (Hd : Host.timerDelay (default (defaultTTL globalQueryCache) (Some (-5))) ≤ 0)
    by (vm_compute; discriminate).
  split; [exact Hd|].
  destruct (set_entry_removed_once_due globalQueryCache "k" (Some "v") (Some (-5)) 0 Hd)
    as (_ & Hhas & _).
  exact Hhas.
Defined.

Lemma get_hit_window_witness :
  ¬ pending "k" globalQueryCache ∧
  1000 < Host.timerDelay (default (defaultTTL globalQueryCache) (Some 5000)) ∧
  1000 ≤ defaultTTL globalQueryCache ∧
  (get "k" (advance 1000 (set "k" (Some "v") (Some 5000) globalQueryCache))).1 = Some "v".
Proof.
  assert (Hdelay : 1000 < Host.timerDelay (default (defaultTTL globalQueryCache) (Some 5000)))
    by (vm_compute; reflexivity).
  assert (Hage : 1000 ≤ defaultTTL globalQueryCache) by (vm_compute; discriminate).
  split_and!; [apply not_pending_globalQueryCache|exact Hdelay|exact Hage|].
  apply (get_hit_window globalQueryCache "k" "v" (Some 5000) 1000
           (not_pending_globalQueryCache "k")).
  split; [exact Hdelay|exact Hage].
Defined.

Lemma page_cache_and_query_cache_boundary_witness :
  cache (advance 300000 tenMinutePage) !! "k" = Some (mkEntry (Some "v") 0 None) ∧
  defaultTTL (advance 300000 tenMinutePage) = PageCache.CACHE_DURATION ∧
  now (advance 300000 tenMinutePage) - 0 = PageCache.CACHE_DURATION ∧
  (get "k" (advance 300000 tenMinutePage)).1 = Some "v" ∧
  PageCache.servesCached (Some (PageCache.mkEntry ([] : list string) 0))
    (now (advance 300000 tenMinutePage)) (None : option string) = false.
Proof.
  assert (Hlk : cache (advance 300000 tenMinutePage) !! "k"
                = Some (mkEntry (Some "v") 0 None)) by reflexivity.
  assert (Httl : defaultTTL (advance 300000 tenMinutePage) = PageCache.CACHE_DURATION)
    by reflexivity.
  assert (Hage : now (advance 300000 tenMinutePage) - 0 = PageCache.CACHE_DURATION)
    by reflexivity.
  destruct (page_cache_and_query_cache_boundary (User := string)
              (advance 300000 tenMinutePage) "k" (mkEntry (Some "v") 0 None) "v"
              (PageCache.mkEntry ([] : list string) 0) Hlk eq_refl Httl eq_refl)
    as [_ Hiff].
  destruct (proj2 Hiff Hage) as [Hget Hpage].
  split_and!; assumption.
Defined.

Lemma getOptimizedImageUrl_twice_witness :
  includes "pexels.com" "https://images.pexels.com/photos/1.jpeg" = true ∧
  400 ≠ 0 ∧ 800 ≠ 0 ∧
  getOptimizedImageUrl
    (getOptimizedImageUrl "https://images.pexels.com/photos/1.jpeg" (Some 400)) (Some 800)
  = "https://images.pexels.com/photos/1.jpeg?w=400&q=75&w=800&q=75".
Proof.
  assert (Hp : includes "pexels.com" "https://images.pexels.com/photos/1.jpeg" = true)
    by reflexivity.
  assert (H1 : 400 ≠ 0) by discriminate.
  assert (H2 : 800 ≠ 0) by discriminate.
  split_and!; [exact Hp|exact H1|exact H2|].
  destruct (getOptimizedImageUrl_twice _ 400 800 Hp H1 H2) as [_ Htwice].
  rewrite Htwice. reflexivity.
Defined.

Lemma createImageSet_other_host_witness :
  includes "pexels.com" "" = false ∧
  createImageSet "" = " 400w,  600w,  800w".
Proof.
  assert (Hp : includes "pexels.com" "" = false) by reflexivity.
  split; [exact Hp|].
  rewrite (createImageSet_other_host "" Hp). reflexivity.
Defined.

Lemma retryFetch_sound_witness :
  completion (retryFetch (Err := string) (A := string)
                (λ j, if (j <? 2)%nat then Rejected "net" else Fulfilled "ok") None)
  = Returned "ok" ∧
  (0 < calls (retryFetch (Err := string) (A := string)
                (λ j, if (j <? 2)%nat then Rejected "net" else Fulfilled "ok") None))%nat.
Proof.
  assert (Hret : completion (retryFetch (Err := string) (A := string)
                   (λ j, if (j <? 2)%nat then Rejected "net" else Fulfilled "ok") None)
                 = Returned "ok") by reflexivity.
  split; [exact Hret|].
  destruct (retryFetch_sound (Err := string) (A := string)
              (λ j, if (j <? 2)%nat then Rejected "net" else Fulfilled "ok") None)
    as (_ & _ & Hsound & _).
  destruct (Hsound "ok" Hret) as (Hpos & _ & _).
  exact Hpos.
Defined.

Lemma retryFetch_returns_first_success_witness :
  Z.of_nat 2 < 3 ∧ (2 ≤ 22)%nat ∧
  retryFetch (Err := string) (A := string)
    (λ j, if (j <? 2)%nat then Rejected "net" else Fulfilled "ok") (Some 3)
  = mkRun (Returned "ok") 3 3000.
Proof.
  assert (Hk : Z.of_nat 2 < 3) by lia.
  assert (Hb : (2 ≤ 22)%nat) by lia.
  split_and!; [exact Hk|exact Hb|].
  rewrite (retryFetch_returns_first_success (Err := string) (A := string)
             (λ j, if (j <? 2)%nat then Rejected "net" else Fulfilled "ok") 3 2 "ok"
             Hk Hb).
  - reflexivity.
  - intros j Hj. exists "net". destruct j as [|[|j]]; [reflexivity|reflexivity|lia].
  - reflexivity.
Defined.

Lemma retryFetch_throws_last_error_witness :
  1 ≤ 3 ≤ 22 ∧
  retryFetch (Err := string) (A := string) (λ _, Rejected "down") (Some 3)
  = mkRun (Thrown (Some "down")) 3 7000.
Proof.
  assert (Hm : 1 ≤ 3 ≤ 22) by lia.
  split; [exact Hm|].
  rewrite (retryFetch_throws_last_error (Err := string) (A := string)
             (λ _, Rejected "down") 3 "down" Hm).
  - reflexivity.
  - intros j _. exists "down". reflexivity.
  - reflexivity.
Defined.

Lemma retryFetch_without_attempt_witness :
  0 ≤ 0 ∧
  retryFetch (Err := string) (A := string) (λ _, Fulfilled "ok") (Some 0)
  = mkRun (Thrown None) 0 0.
Proof.
  assert (Hm : 0 ≤ 0) by lia.
  split; [exact Hm|].
  exact (retryFetch_without_attempt (λ _, Fulfilled "ok") 0 Hm).
Defined.

End ExtraExamples.
